(** * Strain rosette calculator: solver and Mohr's circle

    A shallow embedding of [strain_rosette_web_ver3.py].  The two
    functions of the script, [calculate_strains] and [plot_mohrs_circle],
    are embedded over the real numbers: a Python float is read as the
    real it denotes, and every NumPy primitive as the exact function it
    approximates.  Rounding, overflow and NaN are not part of the model;
    the negative zero of IEEE arithmetic is, in the one place where the
    script can tell it from zero, the first argument of [np.arctan2].

    [np.linalg.solve] is embedded as what LAPACK's [gesv] computes:
    elimination with row interchanges (the pivot is the first entry of
    largest absolute value in the column), then back substitution; an
    exactly zero pivot is the [LinAlgError] NumPy raises. *)

From Stdlib Require Import Reals Lra Psatz List String ZArith.
From Stdlib Require Import Machin.
Import ListNotations.
Local Open Scope R_scope.

(** ** Results and exceptions *)

Inductive exn : Type :=
| LinAlgError (msg : string).

Inductive result (T : Type) : Type :=
| Ok (v : T)
| Raise (e : exn).

Arguments Ok {T} v.
Arguments Raise {T} e.

Definition singular_matrix : exn := LinAlgError "Singular matrix".

(** ** NumPy element-wise primitives *)

Module np.

(** [np.radians]: multiply by pi/180. *)
Definition radians (x : R) : R := x * (PI / 180).

(** [np.degrees]: multiply by 180/pi. *)
Definition degrees (x : R) : R := x * (180 / PI).

Definition cos (x : R) : R := Rtrigo_def.cos x.
Definition sin (x : R) : R := Rtrigo_def.sin x.
Definition sqrt (x : R) : R := R_sqrt.sqrt x.

(** [np.arctan2 y x]: the angle of the point (x, y), in (-pi, pi];
    the value at the origin is 0. *)
Definition arctan2 (y x : R) : R :=
  if Rlt_dec 0 x then atan (y / x)
  else if Rlt_dec x 0 then
    (if Rle_dec 0 y then atan (y / x) + PI else atan (y / x) - PI)
  else
    (if Rlt_dec 0 y then PI / 2
     else if Rlt_dec y 0 then - (PI / 2)
     else 0).

End np.

(** ** Vectors, matrices and the linear solver *)

Definition vec3 : Type := (R * R * R)%type.
Definition mat3 : Type := (vec3 * vec3 * vec3)%type.

(** An equation [a*x + b*y + c*z = d] of the augmented system, and the
    equations left after one and two elimination steps. *)
Record eqn3 : Type := Eqn3 { a3 : R; b3 : R; c3 : R; d3 : R }.
Record eqn2 : Type := Eqn2 { b2 : R; c2 : R; d2 : R }.
Record eqn1 : Type := Eqn1 { c1 : R; d1 : R }.

Definition augment (row : vec3) (rhs : R) : eqn3 :=
  let '(a, b, c) := row in Eqn3 a b c rhs.

(** Row interchange of the first step: the row whose first coefficient
    is the first of largest absolute value goes on top, the row that was
    on top takes its place. *)
Definition pivot3 (r0 r1 r2 : eqn3) : eqn3 * eqn3 * eqn3 :=
  if Rlt_dec (Rabs (a3 r0)) (Rabs (a3 r1)) then
    (if Rlt_dec (Rabs (a3 r1)) (Rabs (a3 r2)) then (r2, r1, r0)
     else (r1, r0, r2))
  else
    (if Rlt_dec (Rabs (a3 r0)) (Rabs (a3 r2)) then (r2, r1, r0)
     else (r0, r1, r2)).

Definition pivot2 (r1 r2 : eqn2) : eqn2 * eqn2 :=
  if Rlt_dec (Rabs (b2 r1)) (Rabs (b2 r2)) then (r2, r1) else (r1, r2).

(** Subtract the multiple of the pivot row that clears the leading
    coefficient. *)
Definition eliminate3 (p r : eqn3) : eqn2 :=
  let l := a3 r / a3 p in
  Eqn2 (b3 r - l * b3 p) (c3 r - l * c3 p) (d3 r - l * d3 p).

Definition eliminate2 (p r : eqn2) : eqn1 :=
  let l := b2 r / b2 p in
  Eqn1 (c2 r - l * c2 p) (d2 r - l * d2 p).

(** LAPACK's [gesv] on the three augmented rows: factor with row
    interchanges, stop on a zero pivot, else substitute back. *)
Definition gesv (r0 r1 r2 : eqn3) : result vec3 :=
  let '(p, q, r) := pivot3 r0 r1 r2 in
  if Req_dec_T (a3 p) 0 then Raise singular_matrix else
  let '(q', r') := pivot2 (eliminate3 p q) (eliminate3 p r) in
  if Req_dec_T (b2 q') 0 then Raise singular_matrix else
  let r'' := eliminate2 q' r' in
  if Req_dec_T (c1 r'') 0 then Raise singular_matrix else
  let z := d1 r'' / c1 r'' in
  let y := (d2 q' - c2 q' * z) / b2 q' in
  let x := (d3 p - b3 p * y - c3 p * z) / a3 p in
  Ok (x, y, z).

Module linalg.

(** [np.linalg.solve] on a 3x3 system. *)
Definition solve (A : mat3) (B : vec3) : result vec3 :=
  let '(A0, A1, A2) := A in
  let '(B0, B1, B2) := B in
  gesv (augment A0 B0) (augment A1 B1) (augment A2 B2).

End linalg.

(** ** [calculate_strains] *)

Definition coefficient_row (theta : R) : vec3 :=
  (np.cos theta ^ 2, np.sin theta ^ 2, np.sin theta * np.cos theta).

Definition coefficient_matrix (theta_a theta_b theta_c : R) : mat3 :=
  let theta_a := np.radians theta_a in
  let theta_b := np.radians theta_b in
  let theta_c := np.radians theta_c in
  ((np.cos theta_a ^ 2, np.sin theta_a ^ 2, np.sin theta_a * np.cos theta_a),
   (np.cos theta_b ^ 2, np.sin theta_b ^ 2, np.sin theta_b * np.cos theta_b),
   (np.cos theta_c ^ 2, np.sin theta_c ^ 2, np.sin theta_c * np.cos theta_c)).

Definition calculate_strains
    (theta_a theta_b theta_c eps_a eps_b eps_c : R) : result vec3 :=
  let A := coefficient_matrix theta_a theta_b theta_c in
  let B := (eps_a, eps_b, eps_c) in
  linalg.solve A B.

(** ** [plot_mohrs_circle] *)

(** What the function draws on the axes. *)
Inductive artist : Type :=
| Circle (xy : R * R) (r : R)
| Plot (xs ys : list R) (fmt : string)
| AxHLine (y : R).

Record axes : Type := Axes {
  artists : list artist;
  xlim : option (R * R);
  ylim : option (R * R);
  aspect_equal : bool;
  yaxis_inverted : bool
}.

Definition subplots : axes := Axes [] None None false false.

Definition add_artist (a : artist) (ax : axes) : axes :=
  Axes (artists ax ++ [a]) (xlim ax) (ylim ax)
       (aspect_equal ax) (yaxis_inverted ax).

Definition set_aspect_equal (ax : axes) : axes :=
  Axes (artists ax) (xlim ax) (ylim ax) true (yaxis_inverted ax).

Definition set_xlim (lo hi : R) (ax : axes) : axes :=
  Axes (artists ax) (Some (lo, hi)) (ylim ax)
       (aspect_equal ax) (yaxis_inverted ax).

Definition set_ylim (lo hi : R) (ax : axes) : axes :=
  Axes (artists ax) (xlim ax) (Some (lo, hi))
       (aspect_equal ax) (yaxis_inverted ax).

Definition invert_yaxis (ax : axes) : axes :=
  Axes (artists ax) (xlim ax) (ylim ax)
       (aspect_equal ax) (negb (yaxis_inverted ax)).

Section MohrsCircle.

Variables eps_x eps_y gamma_xy : R.

Definition center : R := (eps_x + eps_y) / 2.

Definition radius : R :=
  np.sqrt (((eps_x - eps_y) / 2) ^ 2 + (gamma_xy / 2) ^ 2).

Definition eps1 : R := center + radius.
Definition eps2 : R := center - radius.

Definition theta_p_rad : R := 0.5 * np.arctan2 gamma_xy (eps_x - eps_y).
Definition theta_p_deg : R := np.degrees theta_p_rad.

(** The drawing calls, in the order of the source. *)
Definition draw (ax : axes) : axes :=
  let ax := add_artist (Circle (center, 0) radius) ax in
  let ax := add_artist
              (Plot [eps_x; eps_y] [- gamma_xy / 2; gamma_xy / 2] "ko--") ax in
  let ax := add_artist (Plot [center] [0] "ko") ax in
  let ax := add_artist (Plot [eps1] [0] "ro") ax in
  let ax := add_artist (Plot [eps2] [0] "bo") ax in
  let ax := set_aspect_equal ax in
  let ax := add_artist (AxHLine 0) ax in
  let ax := set_xlim (center - radius * 1.2) (center + radius * 1.2) ax in
  let ax := set_ylim (- radius * 1.2) (radius * 1.2) ax in
  invert_yaxis ax.

(** The function returns the principal strains and the principal
    angle; the figure is its effect. *)
Definition plot_mohrs_circle : (R * R * R) * axes :=
  ((eps1, eps2, theta_p_deg), draw subplots).

End MohrsCircle.

(** ** Negative zero *)

(** A float is read as the real it denotes; the negative zero is kept
    apart from zero, which is [Fin 0]. *)
Inductive f64 : Type :=
| Fin (v : R)
| NegZero.

Definition f64_val (x : f64) : R :=
  match x with
  | Fin v => v
  | NegZero => 0
  end.

(** Float subtraction: a zero difference is positive, except that
    [-0.0 - 0.0] is [-0.0]. *)
Definition f64_sub (a b : f64) : f64 :=
  match a, b with
  | NegZero, Fin v => if Req_dec_T v 0 then NegZero else Fin (0 - v)
  | _, _ => Fin (f64_val a - f64_val b)
  end.

(** [np.arctan2] on floats: a negative zero [y] gives [-pi] left of
    the origin where zero gives [pi], and a negative zero [x] counts
    as left of the origin.  The sign of a zero result is dropped. *)
Definition arctan2_f64 (y x : f64) : R :=
  match y, x with
  | Fin yv, Fin xv => np.arctan2 yv xv
  | Fin yv, NegZero =>
      if Rlt_dec 0 yv then PI / 2
      else if Rlt_dec yv 0 then - (PI / 2)
      else PI
  | NegZero, Fin xv => if Rlt_dec xv 0 then - PI else 0
  | NegZero, NegZero => - PI
  end.

(** Lines 45 and 46 of [plot_mohrs_circle] on floats. *)
Definition theta_p_rad_f64 (eps_x eps_y gamma_xy : f64) : R :=
  0.5 * arctan2_f64 gamma_xy (f64_sub eps_x eps_y).

Definition theta_p_deg_f64 (eps_x eps_y gamma_xy : f64) : R :=
  np.degrees (theta_p_rad_f64 eps_x eps_y gamma_xy).

(** ** Specification vocabulary *)

Definition det3 (A : mat3) : R :=
  let '((a, b, c), (d, e, f), (g, h, i)) := A in
  a * (e * i - f * h) - b * (d * i - f * g) + c * (d * h - e * g).

(** The product of a matrix and a column vector. *)
Definition mulmv (A : mat3) (v : vec3) : vec3 :=
  let '((a, b, c), (d, e, f), (g, h, i)) := A in
  let '(x, y, z) := v in
  (a * x + b * y + c * z, d * x + e * y + f * z, g * x + h * y + i * z).

(** The strain-transformation formula: the normal strain read by a gauge
    at angle [theta] (radians) in the strain state [s]. *)
Definition strain_at (s : vec3) (theta : R) : R :=
  let '(eps_x, eps_y, gamma_xy) := s in
  eps_x * Rtrigo_def.cos theta ^ 2 + eps_y * Rtrigo_def.sin theta ^ 2
  + gamma_xy * Rtrigo_def.sin theta * Rtrigo_def.cos theta.

(** Satisfaction of the equations of the three elimination stages, and
    the determinants of the systems they form. *)
Definition sat3 (e : eqn3) (v : vec3) : Prop :=
  let '(x, y, z) := v in a3 e * x + b3 e * y + c3 e * z = d3 e.

Definition sat2 (e : eqn2) (y z : R) : Prop :=
  b2 e * y + c2 e * z = d2 e.

Definition sat1 (e : eqn1) (z : R) : Prop :=
  c1 e * z = d1 e.

Definition edet3 (p q r : eqn3) : R :=
  a3 p * (b3 q * c3 r - c3 q * b3 r)
  - b3 p * (a3 q * c3 r - c3 q * a3 r)
  + c3 p * (a3 q * b3 r - b3 q * a3 r).

Definition edet2 (q r : eqn2) : R := b2 q * c2 r - c2 q * b2 r.

(** The interchange is one of three permutations, and the row put on
    top has the largest leading coefficient. *)
Inductive pivoted3 (r0 r1 r2 : eqn3) : eqn3 * eqn3 * eqn3 -> Prop :=
| Keep012 : pivoted3 r0 r1 r2 (r0, r1, r2)
| Swap01 : pivoted3 r0 r1 r2 (r1, r0, r2)
| Swap02 : pivoted3 r0 r1 r2 (r2, r1, r0).

(** Euclidean distance in the plane of the plot. *)
Definition dist2d (p q : R * R) : R :=
  sqrt ((fst p - fst q) ^ 2 + (snd p - snd q) ^ 2).

Definition midpoint (p q : R * R) : R * R :=
  ((fst p + fst q) / 2, (snd p + snd q) / 2).

(** [x] is [v] when rounded to two decimals. *)
Definition approx_2dp (x v : R) : Prop := Rabs (x - v) <= 0.005.

(** The rectangular-rosette example with readings 1000, 500, -200; the
    two-decimal value of the principal angle is left as a parameter. *)
Definition textbook_case (theta_2dp : R) : Prop :=
  calculate_strains 0 45 90 1000 500 (-200) = Ok (1000, -200, 200) /\
  center 1000 (-200) = 400 /\
  radius 1000 (-200) 200 = sqrt 370000 /\
  approx_2dp (radius 1000 (-200) 200) 608.28 /\
  approx_2dp (eps1 1000 (-200) 200) 1008.28 /\
  approx_2dp (eps2 1000 (-200) 200) (-208.28) /\
  theta_p_deg 1000 (-200) 200 = np.degrees (0.5 * np.arctan2 200 1200) /\
  approx_2dp (theta_p_deg 1000 (-200) 200) theta_2dp.


(** ** The input widgets *)

(** The values the six [st.number_input] widgets start with. *)
Module defaults.
Definition theta_a : R := 0.0.
Definition eps_a : R := 0.0.
Definition theta_b : R := 45.0.
Definition eps_b : R := 0.0.
Definition theta_c : R := 90.0.
Definition eps_c : R := 0.0.
End defaults.

(** ** The extent of the plot *)

Definition on_segment (q q' p : R * R) : Prop :=
  exists t, 0 <= t <= 1 /\
    p = ((1 - t) * fst q + t * fst q', (1 - t) * snd q + t * snd q').

(** The points of the polyline [ax.plot] draws through its data. *)
Fixpoint on_polyline (pts : list (R * R)) (p : R * R) : Prop :=
  match pts with
  | [] => False
  | q :: rest =>
      match rest with
      | [] => p = q
      | q' :: _ => on_segment q q' p \/ on_polyline rest p
      end
  end.

Definition within (lim : option (R * R)) (x : R) : Prop :=
  match lim with
  | Some (lo, hi) => lo <= x <= hi
  | None => True
  end.

(** The points an artist covers: the disc of a circle patch, the
    polyline of a plot, and for [axhline] the part of the horizontal
    line that spans the axes. *)
Definition on_artist (ax : axes) (a : artist) (p : R * R) : Prop :=
  match a with
  | Circle c r => dist2d p c <= r
  | Plot xs ys _ => on_polyline (combine xs ys) p
  | AxHLine y => snd p = y /\ within (xlim ax) (fst p)
  end.

(** The point lies between the limits set on both axes. *)
Definition in_view (ax : axes) (p : R * R) : Prop :=
  match xlim ax, ylim ax with
  | Some (xlo, xhi), Some (ylo, yhi) =>
      xlo <= fst p <= xhi /\ ylo <= snd p <= yhi
  | _, _ => False
  end.


(** * The linear solver *)

Section Solver.

Lemma pivot3_perm r0 r1 r2 : pivoted3 r0 r1 r2 (pivot3 r0 r1 r2).
Proof.
  unfold pivot3.
  destruct (Rlt_dec _ _); destruct (Rlt_dec _ _); constructor.
Qed.

Lemma pivot3_max r0 r1 r2 p q r :
  pivot3 r0 r1 r2 = (p, q, r) ->
  Rabs (a3 q) <= Rabs (a3 p) /\ Rabs (a3 r) <= Rabs (a3 p).
Proof.
  unfold pivot3.
  destruct (Rlt_dec _ _); destruct (Rlt_dec _ _);
    intros H; injection H as <- <- <-; lra.
Qed.

Lemma pivot2_cases r1 r2 :
  pivot2 r1 r2 = (r1, r2) \/ pivot2 r1 r2 = (r2, r1).
Proof. unfold pivot2. destruct (Rlt_dec _ _); auto. Qed.

Lemma pivot2_max r1 r2 q r :
  pivot2 r1 r2 = (q, r) -> Rabs (b2 r) <= Rabs (b2 q).
Proof.
  unfold pivot2.
  destruct (Rlt_dec _ _); intros H; injection H as <- <-; lra.
Qed.

Lemma Rabs_le_zero x y : Rabs x <= Rabs y -> y = 0 -> x = 0.
Proof.
  intros H ->. rewrite Rabs_R0 in H.
  destruct (Req_dec x 0) as [|Hx]; [assumption|].
  apply Rabs_pos_lt in Hx. lra.
Qed.

(** One elimination step keeps the solutions and divides the
    determinant by the pivot. *)
Lemma eliminate3_det p q r :
  a3 p <> 0 ->
  edet3 p q r = a3 p * edet2 (eliminate3 p q) (eliminate3 p r).
Proof. intros Hp. unfold edet3, edet2, eliminate3. simpl. field. exact Hp. Qed.

Lemma eliminate3_sat p r x y z :
  a3 p <> 0 -> sat3 p (x, y, z) ->
  (sat3 r (x, y, z) <-> sat2 (eliminate3 p r) y z).
Proof.
  unfold sat3, sat2, eliminate3. simpl. intros Hp Hs.
  assert (Hx : x = (d3 p - b3 p * y - c3 p * z) / a3 p)
    by (field_simplify_eq; [lra | exact Hp]).
  split; intros H.
  - rewrite <- H, <- Hs. field. exact Hp.
  - apply Rminus_diag_uniq.
    apply Rminus_diag_eq in H.
    rewrite <- H, <- Hs. field. exact Hp.
Qed.

Lemma eliminate2_det q r :
  b2 q <> 0 -> edet2 q r = b2 q * c1 (eliminate2 q r).
Proof. intros Hq. unfold edet2, eliminate2. simpl. field. exact Hq. Qed.

Lemma eliminate2_sat q r y z :
  b2 q <> 0 -> sat2 q y z ->
  (sat2 r y z <-> sat1 (eliminate2 q r) z).
Proof.
  unfold sat2, sat1, eliminate2. simpl. intros Hq Hs.
  split; intros H.
  - rewrite <- H, <- Hs. field. exact Hq.
  - apply Rminus_diag_uniq.
    apply Rminus_diag_eq in H.
    rewrite <- H, <- Hs. field. exact Hq.
Qed.

Lemma edet2_swap q r : edet2 r q = - edet2 q r.
Proof. unfold edet2. ring. Qed.

Lemma pivoted3_det r0 r1 r2 p q r :
  pivoted3 r0 r1 r2 (p, q, r) ->
  edet3 r0 r1 r2 = edet3 p q r \/ edet3 r0 r1 r2 = - edet3 p q r.
Proof.
  intros H. inversion H; subst; [left; reflexivity | right | right];
    unfold edet3; ring.
Qed.

Lemma pivoted3_sat r0 r1 r2 p q r v :
  pivoted3 r0 r1 r2 (p, q, r) ->
  sat3 p v -> sat3 q v -> sat3 r v ->
  sat3 r0 v /\ sat3 r1 v /\ sat3 r2 v.
Proof. intros H. inversion H; subst; auto. Qed.

(** A result of [gesv] solves the three equations, and the system it
    was computed from is regular. *)
Lemma gesv_ok r0 r1 r2 v :
  gesv r0 r1 r2 = Ok v ->
  edet3 r0 r1 r2 <> 0 /\ sat3 r0 v /\ sat3 r1 v /\ sat3 r2 v.
Proof.
  unfold gesv.
  pose proof (pivot3_perm r0 r1 r2) as Hperm.
  destruct (pivot3 r0 r1 r2) as [[p q] r].
  destruct (Req_dec_T (a3 p) 0) as [|Hp]; [discriminate|].
  pose proof (pivot2_cases (eliminate3 p q) (eliminate3 p r)) as Hc.
  destruct (pivot2 (eliminate3 p q) (eliminate3 p r)) as [q' r'].
  destruct (Req_dec_T (b2 q') 0) as [|Hq]; [discriminate|].
  destruct (Req_dec_T (c1 (eliminate2 q' r')) 0) as [|Hr]; [discriminate|].
  intros H. injection H as <-.
  set (z := d1 (eliminate2 q' r') / c1 (eliminate2 q' r')).
  set (y := (d2 q' - c2 q' * z) / b2 q').
  set (x := (d3 p - b3 p * y - c3 p * z) / a3 p).
  assert (S1 : sat1 (eliminate2 q' r') z)
    by (unfold sat1, z; field; exact Hr).
  assert (S2 : sat2 q' y z) by (unfold sat2, y; field; exact Hq).
  assert (S2' : sat2 r' y z) by (apply (eliminate2_sat q'); assumption).
  assert (S3 : sat3 p (x, y, z)) by (unfold sat3, x; field; exact Hp).
  assert (D2 : edet2 q' r' <> 0).
  { rewrite (eliminate2_det q' r' Hq). apply Rmult_integral_contrapositive.
    split; assumption. }
  assert (Sq : sat3 q (x, y, z) /\ sat3 r (x, y, z) /\
               edet2 (eliminate3 p q) (eliminate3 p r) <> 0).
  { destruct Hc as [Hc | Hc]; injection Hc as Eq Er.
    - rewrite Eq in S2, D2. rewrite Er in S2', D2.
      repeat split; [apply (eliminate3_sat p) .. | ]; assumption.
    - rewrite Eq in S2, D2. rewrite Er in S2', D2.
      repeat split; [apply (eliminate3_sat p) .. | ]; try assumption.
      rewrite edet2_swap. lra. }
  destruct Sq as (Sq & Sr & D).
  split.
  - assert (D3 : edet3 p q r <> 0).
    { rewrite (eliminate3_det p q r Hp).
      apply Rmult_integral_contrapositive. split; assumption. }
    destruct (pivoted3_det _ _ _ _ _ _ Hperm) as [-> | ->]; lra.
  - apply (pivoted3_sat _ _ _ _ _ _ _ Hperm); assumption.
Qed.

(** The only exception [gesv] raises is the singular-matrix error,
    and it raises it on singular systems only. *)
Lemma gesv_raise r0 r1 r2 e :
  gesv r0 r1 r2 = Raise e ->
  edet3 r0 r1 r2 = 0 /\ e = singular_matrix.
Proof.
  unfold gesv.
  pose proof (pivot3_perm r0 r1 r2) as Hperm.
  pose proof (pivot3_max r0 r1 r2) as Hmax.
  destruct (pivot3 r0 r1 r2) as [[p q] r].
  specialize (Hmax p q r eq_refl). destruct Hmax as [Hmq Hmr].
  assert (Hz : edet3 p q r = 0 -> edet3 r0 r1 r2 = 0).
  { intros Hz. destruct (pivoted3_det _ _ _ _ _ _ Hperm) as [-> | ->]; lra. }
  destruct (Req_dec_T (a3 p) 0) as [Hp|Hp].
  { intros H. injection H as <-. split; [|reflexivity]. apply Hz.
    pose proof (Rabs_le_zero _ _ Hmq Hp) as Hq0.
    pose proof (Rabs_le_zero _ _ Hmr Hp) as Hr0.
    unfold edet3. rewrite Hp, Hq0, Hr0. ring. }
  rewrite (eliminate3_det p q r Hp) in Hz.
  pose proof (pivot2_cases (eliminate3 p q) (eliminate3 p r)) as Hc.
  pose proof (pivot2_max (eliminate3 p q) (eliminate3 p r)) as Hmax.
  destruct (pivot2 (eliminate3 p q) (eliminate3 p r)) as [q' r'].
  specialize (Hmax q' r' eq_refl).
  assert (Hz' : edet2 q' r' = 0 -> edet3 r0 r1 r2 = 0).
  { intros Hz'. apply Hz.
    destruct Hc as [Hc | Hc]; injection Hc as <- <-.
    - rewrite Hz'. ring.
    - rewrite edet2_swap, Hz'. ring. }
  destruct (Req_dec_T (b2 q') 0) as [Hq|Hq].
  { intros H. injection H as <-. split; [|reflexivity]. apply Hz'.
    pose proof (Rabs_le_zero _ _ Hmax Hq) as Hr0.
    unfold edet2. rewrite Hq, Hr0. ring. }
  destruct (Req_dec_T (c1 (eliminate2 q' r')) 0) as [Hr|Hr].
  { intros H. injection H as <-. split; [|reflexivity]. apply Hz'.
    rewrite (eliminate2_det q' r' Hq), Hr. ring. }
  discriminate.
Qed.

End Solver.

(** * [np.linalg.solve] and determinants *)

Section LinalgSolve.

Lemma edet3_augment A0 A1 A2 B0 B1 B2 :
  edet3 (augment A0 B0) (augment A1 B1) (augment A2 B2) = det3 (A0, A1, A2).
Proof.
  destruct A0 as [[a b] c], A1 as [[d e] f], A2 as [[g h] i].
  unfold edet3, det3. simpl. ring.
Qed.

Lemma sat3_augment A0 A1 A2 B0 B1 B2 v :
  sat3 (augment A0 B0) v -> sat3 (augment A1 B1) v -> sat3 (augment A2 B2) v ->
  mulmv (A0, A1, A2) v = (B0, B1, B2).
Proof.
  destruct A0 as [[a b] c], A1 as [[d e] f], A2 as [[g h] i], v as [[x y] z].
  unfold sat3, mulmv. simpl. intros -> -> ->. reflexivity.
Qed.

Lemma solve_ok A B v :
  linalg.solve A B = Ok v -> det3 A <> 0 /\ mulmv A v = B.
Proof.
  destruct A as [[A0 A1] A2], B as [[B0 B1] B2]. unfold linalg.solve.
  intros H. apply gesv_ok in H. destruct H as (D & S0 & S1 & S2).
  rewrite edet3_augment in D. split; [exact D|].
  apply sat3_augment; assumption.
Qed.

Lemma solve_raise A B e :
  linalg.solve A B = Raise e -> det3 A = 0 /\ e = singular_matrix.
Proof.
  destruct A as [[A0 A1] A2], B as [[B0 B1] B2]. unfold linalg.solve.
  intros H. apply gesv_raise in H. rewrite edet3_augment in H. exact H.
Qed.

Lemma solve_regular A B :
  det3 A <> 0 -> exists v, linalg.solve A B = Ok v /\ mulmv A v = B.
Proof.
  intros D. destruct (linalg.solve A B) as [v|e] eqn:E.
  - exists v. split; [reflexivity|]. apply (solve_ok _ _ _ E).
  - apply solve_raise in E. tauto.
Qed.

Lemma solve_singular A B :
  det3 A = 0 -> linalg.solve A B = Raise singular_matrix.
Proof.
  intros D. destruct (linalg.solve A B) as [v|e] eqn:E.
  - apply solve_ok in E. tauto.
  - apply solve_raise in E. destruct E as [_ ->]. reflexivity.
Qed.

(** Cramer's rule, in the form free of division: the determinant times
    each unknown is the determinant with the right-hand side in its
    column. *)
Lemma cramer A v :
  let '((a, b, c), (d, e, f), (g, h, i)) := A in
  let '(x, y, z) := v in
  let '(p, q, r) := mulmv A v in
  det3 A * x = p * (e * i - f * h) - b * (q * i - f * r) + c * (q * h - e * r)
  /\ det3 A * y = a * (q * i - f * r) - p * (d * i - f * g) + c * (d * r - q * g)
  /\ det3 A * z = a * (e * r - q * h) - b * (d * r - q * g) + p * (d * h - e * g).
Proof.
  destruct A as [[[[a b] c] [[d e] f]] [[g h] i]], v as [[x y] z].
  unfold mulmv, det3. repeat split; ring.
Qed.

Lemma solution_unique A v w :
  det3 A <> 0 -> mulmv A v = mulmv A w -> v = w.
Proof.
  intros D E.
  pose proof (cramer A v) as Cv. pose proof (cramer A w) as Cw.
  rewrite E in Cv.
  destruct A as [[[[a b] c] [[d e] f]] [[g h] i]].
  destruct v as [[x y] z], w as [[x' y'] z'].
  destruct (mulmv _ (x', y', z')) as [[p q] r].
  destruct Cv as (X & Y & Z), Cw as (X' & Y' & Z').
  rewrite <- X' in X. rewrite <- Y' in Y. rewrite <- Z' in Z.
  apply Rmult_eq_reg_l in X, Y, Z; try exact D.
  subst. reflexivity.
Qed.

(** A regular system has one solution, and the solver returns it. *)
Lemma solve_complete A v :
  det3 A <> 0 -> linalg.solve A (mulmv A v) = Ok v.
Proof.
  intros D. destruct (solve_regular A (mulmv A v) D) as (w & E & S).
  rewrite E. f_equal. apply (solution_unique A); assumption.
Qed.

End LinalgSolve.

(** * The coefficient matrix *)

Section CoefficientMatrix.

Lemma radians_0 : np.radians 0 = 0.
Proof. unfold np.radians. ring. Qed.

Lemma radians_45 : np.radians 45 = PI / 4.
Proof. unfold np.radians. field. Qed.

Lemma radians_90 : np.radians 90 = PI / 2.
Proof. unfold np.radians. field. Qed.

Lemma radians_plus_180 d : np.radians (d + 180) = np.radians d + PI.
Proof. unfold np.radians. field. Qed.

Lemma sqrt2_sqr : sqrt 2 * sqrt 2 = 2.
Proof. apply sqrt_sqrt. lra. Qed.

Lemma sqrt2_neq_0 : sqrt 2 <> 0.
Proof. pose proof sqrt2_sqr. intros E. rewrite E in *. lra. Qed.

Lemma cos_PI4_sqr : cos (PI / 4) ^ 2 = 1 / 2.
Proof.
  rewrite cos_PI4. pose proof sqrt2_sqr. pose proof sqrt2_neq_0.
  field_simplify_eq; [lra | assumption].
Qed.

Lemma sin_PI4_sqr : sin (PI / 4) ^ 2 = 1 / 2.
Proof.
  rewrite sin_PI4. pose proof sqrt2_sqr. pose proof sqrt2_neq_0.
  field_simplify_eq; [lra | assumption].
Qed.

Lemma sin_cos_PI4 : sin (PI / 4) * cos (PI / 4) = 1 / 2.
Proof.
  rewrite sin_PI4, cos_PI4. pose proof sqrt2_sqr. pose proof sqrt2_neq_0.
  field_simplify_eq; [lra | assumption].
Qed.

(** The rectangular rosette 0/45/90. *)
Lemma coefficient_matrix_0_45_90 :
  coefficient_matrix 0 45 90 = ((1, 0, 0), (1 / 2, 1 / 2, 1 / 2), (0, 1, 0)).
Proof.
  unfold coefficient_matrix, np.cos, np.sin.
  rewrite radians_0, radians_45, radians_90.
  rewrite cos_0, sin_0, cos_PI2, sin_PI2.
  rewrite cos_PI4_sqr, sin_PI4_sqr, sin_cos_PI4.
  repeat f_equal; ring.
Qed.

Lemma det3_0_45_90 : det3 (coefficient_matrix 0 45 90) = - (1 / 2).
Proof. rewrite coefficient_matrix_0_45_90. unfold det3. field. Qed.

Lemma det3_0_45_90_regular : det3 (coefficient_matrix 0 45 90) <> 0.
Proof. rewrite det3_0_45_90. lra. Qed.

(** A row of the matrix applied to a strain state is the
    strain-transformation formula at the gauge angle. *)
Lemma mulmv_coefficient_matrix theta_a theta_b theta_c s :
  mulmv (coefficient_matrix theta_a theta_b theta_c) s =
  (strain_at s (np.radians theta_a),
   strain_at s (np.radians theta_b),
   strain_at s (np.radians theta_c)).
Proof.
  destruct s as [[ex ey] g].
  unfold mulmv, coefficient_matrix, strain_at, np.cos, np.sin.
  f_equal; [f_equal|]; ring.
Qed.

(** The three entries of a row have period pi. *)
Lemma coefficient_row_plus_PI theta :
  coefficient_row (theta + PI) = coefficient_row theta.
Proof.
  unfold coefficient_row, np.cos, np.sin.
  rewrite neg_cos, neg_sin. f_equal; [f_equal|]; ring.
Qed.

Lemma coefficient_row_period_nat theta (n : nat) :
  coefficient_row (theta + INR n * PI) = coefficient_row theta.
Proof.
  induction n as [|n IH].
  - simpl. f_equal. ring.
  - rewrite S_INR.
    replace (theta + (INR n + 1) * PI) with (theta + INR n * PI + PI) by ring.
    rewrite coefficient_row_plus_PI. exact IH.
Qed.

Lemma coefficient_row_period theta (k : Z) :
  coefficient_row (theta + IZR k * PI) = coefficient_row theta.
Proof.
  destruct (Z_le_gt_dec 0 k) as [Hk | Hk].
  - rewrite <- (Z2Nat.id k Hk), <- INR_IZR_INZ.
    apply coefficient_row_period_nat.
  - rewrite <- (coefficient_row_period_nat (theta + IZR k * PI) (Z.to_nat (- k))).
    f_equal. rewrite INR_IZR_INZ, Z2Nat.id by lia.
    rewrite opp_IZR. ring.
Qed.

Lemma coefficient_matrix_rows theta_a theta_b theta_c :
  coefficient_matrix theta_a theta_b theta_c =
  (coefficient_row (np.radians theta_a),
   coefficient_row (np.radians theta_b),
   coefficient_row (np.radians theta_c)).
Proof. reflexivity. Qed.

Lemma radians_plus_mult_180 d (k : Z) :
  np.radians (d + 180 * IZR k) = np.radians d + IZR k * PI.
Proof. unfold np.radians. field. Qed.

(** Exchanging two rows negates the determinant; two equal rows annul
    it. *)
Lemma det3_swap02 r0 r1 r2 : det3 (r2, r1, r0) = - det3 (r0, r1, r2).
Proof.
  destruct r0 as [[a b] c], r1 as [[d e] f], r2 as [[g h] i].
  unfold det3. ring.
Qed.

Lemma det3_rows01 r r2 : det3 (r, r, r2) = 0.
Proof.
  destruct r as [[a b] c], r2 as [[g h] i]. unfold det3. ring.
Qed.

Lemma det3_rows02 r r1 : det3 (r, r1, r) = 0.
Proof.
  destruct r as [[a b] c], r1 as [[d e] f]. unfold det3. ring.
Qed.

Lemma det3_rows12 r0 r : det3 (r0, r, r) = 0.
Proof.
  destruct r0 as [[a b] c], r as [[d e] f]. unfold det3. ring.
Qed.

End CoefficientMatrix.

(** * [calculate_strains] *)

Section CalculateStrains.

Lemma calculate_strains_complete theta_a theta_b theta_c s :
  det3 (coefficient_matrix theta_a theta_b theta_c) <> 0 ->
  calculate_strains theta_a theta_b theta_c
    (strain_at s (np.radians theta_a))
    (strain_at s (np.radians theta_b))
    (strain_at s (np.radians theta_c)) = Ok s.
Proof.
  intros D. unfold calculate_strains.
  rewrite <- mulmv_coefficient_matrix. apply solve_complete. exact D.
Qed.

Lemma equal_mod_180_row d d' :
  (exists k : Z, d = d' + 180 * IZR k) ->
  coefficient_row (np.radians d) = coefficient_row (np.radians d').
Proof.
  intros [k ->]. rewrite radians_plus_mult_180.
  apply coefficient_row_period.
Qed.

(** Two gauges along the same line, whatever their sense, make the
    matrix singular. *)
Lemma equal_mod_180_singular theta_a theta_b theta_c :
  (exists k : Z, theta_a = theta_b + 180 * IZR k) \/
  (exists k : Z, theta_a = theta_c + 180 * IZR k) \/
  (exists k : Z, theta_b = theta_c + 180 * IZR k) ->
  det3 (coefficient_matrix theta_a theta_b theta_c) = 0.
Proof.
  rewrite coefficient_matrix_rows.
  intros [H | [H | H]]; apply equal_mod_180_row in H; rewrite H.
  - apply det3_rows01.
  - apply det3_rows02.
  - apply det3_rows12.
Qed.

(** The determinant factors into the sines of the pairwise angle
    differences, so the matrix is singular on gauges along a common
    line and on no others. *)
Lemma det3_coefficient_matrix theta_a theta_b theta_c :
  det3 (coefficient_matrix theta_a theta_b theta_c) =
  sin (np.radians theta_a - np.radians theta_b)
  * sin (np.radians theta_b - np.radians theta_c)
  * sin (np.radians theta_a - np.radians theta_c).
Proof.
  unfold coefficient_matrix, det3, np.cos, np.sin.
  rewrite !sin_minus. ring.
Qed.

Lemma sin_radians_diff_0 d d' :
  sin (np.radians d - np.radians d') = 0 ->
  exists k : Z, d = d' + 180 * IZR k.
Proof.
  intros H. apply sin_eq_0_0 in H. destruct H as [k Hk].
  exists k. unfold np.radians in Hk. pose proof PI_RGT_0.
  assert (E : (d - d') * PI = (180 * IZR k) * PI) by lra.
  apply Rmult_eq_reg_r in E; lra.
Qed.

Lemma singular_equal_mod_180 theta_a theta_b theta_c :
  det3 (coefficient_matrix theta_a theta_b theta_c) = 0 ->
  (exists k : Z, theta_a = theta_b + 180 * IZR k) \/
  (exists k : Z, theta_a = theta_c + 180 * IZR k) \/
  (exists k : Z, theta_b = theta_c + 180 * IZR k).
Proof.
  rewrite det3_coefficient_matrix. intros H.
  apply Rmult_integral in H. destruct H as [H | H].
  - apply Rmult_integral in H. destruct H as [H | H].
    + left. apply sin_radians_diff_0, H.
    + right. right. apply sin_radians_diff_0, H.
  - right. left. apply sin_radians_diff_0, H.
Qed.

(** C1: for every three readings whose coefficient matrix is regular,
    [calculate_strains] builds the matrix with rows
    [cos^2 t, sin^2 t, sin t * cos t] at the angles converted to radians,
    and returns a strain state (eps_x, eps_y, gamma_xy) that solves the
    system: each reading is the strain-transformation formula at its
    angle. *)
Theorem calculate_strains_solves theta_a theta_b theta_c eps_a eps_b eps_c :
  det3 (coefficient_matrix theta_a theta_b theta_c) <> 0 ->
  let ta := theta_a * (PI / 180) in
  let tb := theta_b * (PI / 180) in
  let tc := theta_c * (PI / 180) in
  coefficient_matrix theta_a theta_b theta_c =
    ((cos ta ^ 2, sin ta ^ 2, sin ta * cos ta),
     (cos tb ^ 2, sin tb ^ 2, sin tb * cos tb),
     (cos tc ^ 2, sin tc ^ 2, sin tc * cos tc)) /\
  exists eps_x eps_y gamma_xy,
    calculate_strains theta_a theta_b theta_c eps_a eps_b eps_c
      = Ok (eps_x, eps_y, gamma_xy) /\
    mulmv (coefficient_matrix theta_a theta_b theta_c)
          (eps_x, eps_y, gamma_xy) = (eps_a, eps_b, eps_c) /\
    eps_a = eps_x * cos ta ^ 2 + eps_y * sin ta ^ 2 + gamma_xy * sin ta * cos ta /\
    eps_b = eps_x * cos tb ^ 2 + eps_y * sin tb ^ 2 + gamma_xy * sin tb * cos tb /\
    eps_c = eps_x * cos tc ^ 2 + eps_y * sin tc ^ 2 + gamma_xy * sin tc * cos tc.
Proof.
  intros D ta tb tc. split; [reflexivity|].
  destruct (solve_regular _ (eps_a, eps_b, eps_c) D) as ([[ex ey] g] & E & S).
  exists ex, ey, g. split; [exact E|]. split; [exact S|].
  rewrite mulmv_coefficient_matrix in S.
  injection S as <- <- <-. repeat split.
Qed.

Lemma calculate_strains_solves_witness :
  det3 (coefficient_matrix 0 45 90) <> 0 /\
  exists eps_x eps_y gamma_xy,
    calculate_strains 0 45 90 1000 500 (-200) = Ok (eps_x, eps_y, gamma_xy) /\
    mulmv (coefficient_matrix 0 45 90) (eps_x, eps_y, gamma_xy)
      = (1000, 500, -200).
Proof.
  split; [exact det3_0_45_90_regular|].
  destruct (calculate_strains_solves 0 45 90 1000 500 (-200)
              det3_0_45_90_regular) as (_ & ex & ey & g & E & S & _).
  exists ex, ey, g. split; assumption.
Defined.

(** C4: readings synthesised from a strain state with the
    strain-transformation formula at 0, 45 and 90 degrees, that is at
    0, pi/4 and pi/2 radians, where they are eps_x,
    (eps_x + eps_y + gamma_xy)/2 and eps_y, give that strain state
    back. *)
Theorem round_trip_0_45_90 eps_x eps_y gamma_xy :
  let formula theta :=
    eps_x * cos theta ^ 2 + eps_y * sin theta ^ 2
    + gamma_xy * sin theta * cos theta in
  calculate_strains 0 45 90 (formula 0) (formula (PI / 4)) (formula (PI / 2))
    = Ok (eps_x, eps_y, gamma_xy) /\
  formula 0 = eps_x /\
  formula (PI / 4) = (eps_x + eps_y + gamma_xy) / 2 /\
  formula (PI / 2) = eps_y.
Proof.
  cbv zeta.
  assert (Ha : eps_x * cos 0 ^ 2 + eps_y * sin 0 ^ 2
               + gamma_xy * sin 0 * cos 0 = eps_x)
    by (rewrite cos_0, sin_0; ring).
  assert (Hb : eps_x * cos (PI / 4) ^ 2 + eps_y * sin (PI / 4) ^ 2
               + gamma_xy * sin (PI / 4) * cos (PI / 4)
               = (eps_x + eps_y + gamma_xy) / 2).
  { replace (gamma_xy * sin (PI / 4) * cos (PI / 4))
      with (gamma_xy * (sin (PI / 4) * cos (PI / 4))) by ring.
    rewrite cos_PI4_sqr, sin_PI4_sqr, sin_cos_PI4. field. }
  assert (Hc : eps_x * cos (PI / 2) ^ 2 + eps_y * sin (PI / 2) ^ 2
               + gamma_xy * sin (PI / 2) * cos (PI / 2) = eps_y)
    by (rewrite cos_PI2, sin_PI2; ring).
  split; [|auto].
  pose proof (calculate_strains_complete 0 45 90 (eps_x, eps_y, gamma_xy)
                det3_0_45_90_regular) as H.
  unfold strain_at in H.
  rewrite radians_0, radians_45, radians_90 in H.
  exact H.
Qed.

(** C7: on a regular system, passing the readings in reversed order
    (C, B, A) gives the same strain state. *)
Theorem calculate_strains_reversed theta_a theta_b theta_c eps_a eps_b eps_c :
  det3 (coefficient_matrix theta_a theta_b theta_c) <> 0 ->
  exists s,
    calculate_strains theta_a theta_b theta_c eps_a eps_b eps_c = Ok s /\
    calculate_strains theta_c theta_b theta_a eps_c eps_b eps_a = Ok s.
Proof.
  intros D.
  destruct (solve_regular _ (eps_a, eps_b, eps_c) D) as (s & E & S).
  exists s. split; [exact E|].
  rewrite mulmv_coefficient_matrix in S. injection S as <- <- <-.
  apply calculate_strains_complete.
  rewrite coefficient_matrix_rows, det3_swap02, <- coefficient_matrix_rows.
  lra.
Qed.

Lemma calculate_strains_reversed_witness :
  det3 (coefficient_matrix 0 45 90) <> 0 /\
  exists s,
    calculate_strains 0 45 90 1000 500 (-200) = Ok s /\
    calculate_strains 90 45 0 (-200) 500 1000 = Ok s.
Proof.
  split; [exact det3_0_45_90_regular|].
  exact (calculate_strains_reversed 0 45 90 1000 500 (-200)
           det3_0_45_90_regular).
Defined.

(** C9: adding 180 degrees to any one angle leaves the coefficient
    matrix unchanged, so on a regular system [calculate_strains] returns
    the same strain state. *)
Theorem calculate_strains_period_180
    theta_a theta_b theta_c eps_a eps_b eps_c :
  det3 (coefficient_matrix theta_a theta_b theta_c) <> 0 ->
  coefficient_matrix (theta_a + 180) theta_b theta_c
    = coefficient_matrix theta_a theta_b theta_c /\
  coefficient_matrix theta_a (theta_b + 180) theta_c
    = coefficient_matrix theta_a theta_b theta_c /\
  coefficient_matrix theta_a theta_b (theta_c + 180)
    = coefficient_matrix theta_a theta_b theta_c /\
  exists s,
    calculate_strains theta_a theta_b theta_c eps_a eps_b eps_c = Ok s /\
    calculate_strains (theta_a + 180) theta_b theta_c eps_a eps_b eps_c = Ok s /\
    calculate_strains theta_a (theta_b + 180) theta_c eps_a eps_b eps_c = Ok s /\
    calculate_strains theta_a theta_b (theta_c + 180) eps_a eps_b eps_c = Ok s.
Proof.
  intros D.
  assert (Ha : coefficient_matrix (theta_a + 180) theta_b theta_c
               = coefficient_matrix theta_a theta_b theta_c).
  { rewrite !coefficient_matrix_rows, radians_plus_180,
      coefficient_row_plus_PI. reflexivity. }
  assert (Hb : coefficient_matrix theta_a (theta_b + 180) theta_c
               = coefficient_matrix theta_a theta_b theta_c).
  { rewrite !coefficient_matrix_rows, radians_plus_180,
      coefficient_row_plus_PI. reflexivity. }
  assert (Hc : coefficient_matrix theta_a theta_b (theta_c + 180)
               = coefficient_matrix theta_a theta_b theta_c).
  { rewrite !coefficient_matrix_rows, radians_plus_180,
      coefficient_row_plus_PI. reflexivity. }
  repeat (split; [assumption|]).
  destruct (solve_regular _ (eps_a, eps_b, eps_c) D) as (s & E & _).
  exists s. unfold calculate_strains. rewrite Ha, Hb, Hc. auto.
Qed.

Lemma calculate_strains_period_180_witness :
  det3 (coefficient_matrix 0 45 90) <> 0 /\
  exists s,
    calculate_strains 0 45 90 1000 500 (-200) = Ok s /\
    calculate_strains (0 + 180) 45 90 1000 500 (-200) = Ok s.
Proof.
  split; [exact det3_0_45_90_regular|].
  destruct (calculate_strains_period_180 0 45 90 1000 500 (-200)
              det3_0_45_90_regular) as (_ & _ & _ & s & E & Ea & _).
  exists s. split; assumption.
Defined.

End CalculateStrains.

(** * The two-argument arctangent *)

Section Arctan2.

Lemma hypot_pos x y :
  0 < x -> sqrt (x ^ 2 + y ^ 2) = x * sqrt (1 + (y / x)²).
Proof.
  intros Hx.
  replace (x ^ 2 + y ^ 2) with (x² * (1 + (y / x)²))
    by (unfold Rsqr; field; lra).
  rewrite sqrt_mult_alt by apply Rle_0_sqr.
  rewrite sqrt_Rsqr by lra. reflexivity.
Qed.

Lemma hypot_neg x y :
  x < 0 -> sqrt (x ^ 2 + y ^ 2) = - x * sqrt (1 + (y / x)²).
Proof.
  intros Hx.
  replace (x ^ 2 + y ^ 2) with ((- x)² * (1 + (y / x)²))
    by (unfold Rsqr; field; lra).
  rewrite sqrt_mult_alt by apply Rle_0_sqr.
  rewrite sqrt_Rsqr by lra. reflexivity.
Qed.

Lemma sqrt_1_sqr_pos t : 0 < sqrt (1 + t²).
Proof. apply sqrt_lt_R0. pose proof (Rle_0_sqr t). lra. Qed.

Lemma sqrt_pow2_abs y : sqrt (0 ^ 2 + y ^ 2) = Rabs y.
Proof.
  replace (0 ^ 2 + y ^ 2) with (y²) by (unfold Rsqr; ring).
  apply sqrt_Rsqr_abs.
Qed.

(** [np.arctan2 y x] is the polar angle of the point (x, y). *)
Lemma arctan2_polar y x :
  x = sqrt (x ^ 2 + y ^ 2) * cos (np.arctan2 y x) /\
  y = sqrt (x ^ 2 + y ^ 2) * sin (np.arctan2 y x).
Proof.
  unfold np.arctan2.
  destruct (Rlt_dec 0 x) as [Hx | Hx].
  { rewrite hypot_pos, cos_atan, sin_atan by exact Hx.
    pose proof (sqrt_1_sqr_pos (y / x)). split; field; lra. }
  destruct (Rlt_dec x 0) as [Hx' | Hx'].
  { rewrite hypot_neg by exact Hx'.
    pose proof (sqrt_1_sqr_pos (y / x)).
    destruct (Rle_dec 0 y).
    - rewrite neg_cos, neg_sin, cos_atan, sin_atan. split; field; lra.
    - unfold Rminus. rewrite cos_plus, sin_plus, cos_neg, sin_neg.
      rewrite cos_PI, sin_PI, cos_atan, sin_atan. split; field; lra. }
  assert (x = 0) by lra. subst x. rewrite sqrt_pow2_abs.
  destruct (Rlt_dec 0 y) as [Hy | Hy].
  { rewrite cos_PI2, sin_PI2, Rabs_pos_eq by lra. split; ring. }
  destruct (Rlt_dec y 0) as [Hy' | Hy'].
  { rewrite cos_neg, sin_neg, cos_PI2, sin_PI2, Rabs_left by lra.
    split; ring. }
  assert (y = 0) by lra. subst y. rewrite Rabs_R0. split; ring.
Qed.




Lemma arctan2_0_0 : np.arctan2 0 0 = 0.
Proof.
  unfold np.arctan2.
  destruct (Rlt_dec 0 0); [lra|]. reflexivity.
Qed.

Lemma arctan2_pos y x : 0 < x -> np.arctan2 y x = atan (y / x).
Proof.
  intros Hx. unfold np.arctan2.
  destruct (Rlt_dec 0 x); [reflexivity | contradiction].
Qed.

End Arctan2.

(** * Numerical bounds *)

Section Bounds.

Lemma PI_bounds : 3.1415 < PI < 3.1417.
Proof.
  pose proof (PI_2_3_7_ineq 2) as H.
  unfold sum_f_R0, tg_alt, PI_2_3_7_tg, Ratan_seq in H.
  simpl in H. lra.
Qed.

(** The partial sums of the arctangent series enclose its value. *)
Lemma atan_alt_bounds x (N : nat) :
  0 < x < 1 ->
  sum_f_R0 (tg_alt (Ratan_seq x)) (S (2 * N)) <= atan x
    <= sum_f_R0 (tg_alt (Ratan_seq x)) (2 * N).
Proof.
  intros Hx.
  assert (Hx' : 0 <= x <= 1) by lra.
  rewrite atan_eq_ps_atan by exact Hx.
  unfold ps_atan.
  destruct (Ratan.in_int x) as [Hin | Hout]; [|exfalso; apply Hout; lra].
  destruct (ps_atan_exists_1 x Hin) as [v Hv].
  apply alternated_series_ineq.
  - apply Ratan_seq_decreasing. exact Hx'.
  - apply Ratan_seq_converging. exact Hx'.
  - exact Hv.
Qed.

Lemma atan_sixth_bounds : 0.16512 < atan (1 / 6) < 0.16515.
Proof.
  assert (Hx : 0 < 1 / 6 < 1) by lra.
  pose proof (atan_alt_bounds (1 / 6) 0 Hx) as [L _].
  pose proof (atan_alt_bounds (1 / 6) 1 Hx) as [_ U].
  unfold sum_f_R0, tg_alt, Ratan_seq in L, U. simpl in L, U. lra.
Qed.

Lemma sqrt_370000_bounds : 608.276 < sqrt 370000 < 608.277.
Proof.
  pose proof (sqrt_pos 370000) as Hp.
  pose proof (sqrt_sqrt 370000 ltac:(lra)) as Hs.
  split.
  - destruct (Rlt_le_dec 608.276 (sqrt 370000)) as [H|H]; [exact H|]. nra.
  - destruct (Rlt_le_dec (sqrt 370000) 608.277) as [H|H]; [exact H|]. nra.
Qed.

Lemma approx_2dp_intro x v lo hi :
  lo < x < hi -> v - 0.005 <= lo -> hi <= v + 0.005 -> approx_2dp x v.
Proof.
  intros H L U. unfold approx_2dp. apply Rabs_le. lra.
Qed.

Lemma approx_2dp_elim x v : approx_2dp x v -> v - 0.005 <= x <= v + 0.005.
Proof.
  unfold approx_2dp. intros H.
  destruct (Rabs_def2 (x - v) 0.006) as [H1 H2]; [lra|].
  pose proof (Rle_abs (x - v)). pose proof (Rle_abs (- (x - v))).
  rewrite Rabs_Ropp in *. lra.
Qed.

End Bounds.

(** * [plot_mohrs_circle] *)

Section MohrsCircleFacts.

Variables eps_x eps_y gamma_xy : R.

Lemma radicand_nonneg :
  0 <= ((eps_x - eps_y) / 2) ^ 2 + (gamma_xy / 2) ^ 2.
Proof. apply Rplus_le_le_0_compat; apply pow2_ge_0. Qed.

Lemma radius_nonneg : 0 <= radius eps_x eps_y gamma_xy.
Proof. unfold radius, np.sqrt. apply sqrt_pos. Qed.

Lemma radius_sqr :
  radius eps_x eps_y gamma_xy ^ 2 =
  ((eps_x - eps_y) / 2) ^ 2 + (gamma_xy / 2) ^ 2.
Proof.
  unfold radius, np.sqrt.
  replace (sqrt (((eps_x - eps_y) / 2) ^ 2 + (gamma_xy / 2) ^ 2) ^ 2)
    with (sqrt (((eps_x - eps_y) / 2) ^ 2 + (gamma_xy / 2) ^ 2)
          * sqrt (((eps_x - eps_y) / 2) ^ 2 + (gamma_xy / 2) ^ 2)) by ring.
  apply sqrt_sqrt, radicand_nonneg.
Qed.

(** The circle degenerates to a point on isotropic states only. *)
Lemma radius_zero_iff :
  radius eps_x eps_y gamma_xy = 0 <-> eps_x = eps_y /\ gamma_xy = 0.
Proof.
  pose proof radius_sqr as Hs.
  split.
  - intros H0. rewrite H0 in Hs.
    set (u := (eps_x - eps_y) / 2) in *. set (v := gamma_xy / 2) in *.
    assert (Hu : u = 0) by nra. assert (Hv : v = 0) by nra.
    unfold u, v in *. lra.
  - intros [Hx Hg]. unfold radius, np.sqrt. rewrite Hx, Hg.
    replace (((eps_y - eps_y) / 2) ^ 2 + (0 / 2) ^ 2) with 0 by field.
    apply sqrt_0.
Qed.

(** The diameter of the circle is the length of the vector
    (eps_x - eps_y, gamma_xy). *)
Lemma diameter_hypot :
  sqrt ((eps_x - eps_y) ^ 2 + gamma_xy ^ 2) = 2 * radius eps_x eps_y gamma_xy.
Proof.
  unfold radius, np.sqrt.
  replace ((eps_x - eps_y) ^ 2 + gamma_xy ^ 2)
    with (2² * (((eps_x - eps_y) / 2) ^ 2 + (gamma_xy / 2) ^ 2))
    by (unfold Rsqr; field).
  rewrite sqrt_mult_alt by apply Rle_0_sqr.
  rewrite sqrt_Rsqr by lra. reflexivity.
Qed.

Lemma theta_p_deg_eq :
  theta_p_deg eps_x eps_y gamma_xy =
  90 * (np.arctan2 gamma_xy (eps_x - eps_y) / PI).
Proof.
  unfold theta_p_deg, theta_p_rad, np.degrees.
  replace 0.5 with (1 / 2) by lra. field.
  pose proof PI_RGT_0. lra.
Qed.


(** C10: the two endpoints of the dashed segment,
    (eps_x, -gamma_xy/2) and (eps_y, gamma_xy/2), are at distance
    [radius] from the centre (center, 0) of the drawn circle, and the
    centre is their midpoint: the segment is a diameter. *)
Theorem segment_is_diameter :
  let P := (eps_x, - gamma_xy / 2) in
  let Q := (eps_y, gamma_xy / 2) in
  let C := (center eps_x eps_y, 0) in
  let fig := snd (plot_mohrs_circle eps_x eps_y gamma_xy) in
  In (Circle C (radius eps_x eps_y gamma_xy)) (artists fig) /\
  In (Plot [fst P; fst Q] [snd P; snd Q] "ko--") (artists fig) /\
  dist2d P C = radius eps_x eps_y gamma_xy /\
  dist2d Q C = radius eps_x eps_y gamma_xy /\
  midpoint P Q = C.
Proof.
  cbv zeta. split; [simpl; auto|]. split; [simpl; auto|].
  unfold dist2d, midpoint, radius, np.sqrt, center. simpl fst. simpl snd.
  repeat split.
  - f_equal. field.
  - f_equal. field.
  - f_equal; field.
Qed.

End MohrsCircleFacts.

Section MohrsCircleNegativeZero.

Lemma theta_p_deg_f64_eq eps_x eps_y gamma_xy :
  theta_p_deg_f64 eps_x eps_y gamma_xy =
  90 * (arctan2_f64 gamma_xy (f64_sub eps_x eps_y) / PI).
Proof.
  unfold theta_p_deg_f64, theta_p_rad_f64, np.degrees.
  replace 0.5 with (1 / 2) by lra. field.
  pose proof PI_RGT_0. lra.
Qed.

(** On floats other than the negative zero the angle is the one
    computed on the reals they denote. *)
Lemma theta_p_deg_f64_Fin eps_x eps_y gamma_xy :
  theta_p_deg_f64 (Fin eps_x) (Fin eps_y) (Fin gamma_xy)
  = theta_p_deg eps_x eps_y gamma_xy.
Proof. reflexivity. Qed.







End MohrsCircleNegativeZero.

Section MohrsCircleCases.

(** C8: for eps_x = eps_y = 100 and gamma_xy = 0 the analysis gives
    center = 100, radius = 0, eps1 = eps2 = 100 and theta_p_deg = 0. *)
Theorem isotropic_case :
  center 100 100 = 100 /\
  radius 100 100 0 = 0 /\
  eps1 100 100 0 = 100 /\
  eps2 100 100 0 = 100 /\
  theta_p_deg 100 100 0 = 0.
Proof.
  assert (Hc : center 100 100 = 100) by (unfold center; field).
  assert (Hr : radius 100 100 0 = 0).
  { apply radius_zero_iff. split; reflexivity. }
  split; [exact Hc|]. split; [exact Hr|].
  unfold eps1, eps2. rewrite Hc, Hr.
  split; [ring|]. split; [ring|].
  rewrite theta_p_deg_eq.
  replace (100 - 100) with 0 by ring.
  rewrite arctan2_0_0. field. pose proof PI_RGT_0. lra.
Qed.

Lemma textbook_strains :
  calculate_strains 0 45 90 1000 500 (-200) = Ok (1000, -200, 200).
Proof.
  pose proof (calculate_strains_complete 0 45 90 (1000, -200, 200)
                det3_0_45_90_regular) as H.
  unfold strain_at in H.
  rewrite radians_0, radians_45, radians_90 in H.
  rewrite cos_0, sin_0, cos_PI2, sin_PI2 in H.
  replace (200 * sin (PI / 4) * cos (PI / 4))
    with (200 * (sin (PI / 4) * cos (PI / 4))) in H by ring.
  rewrite cos_PI4_sqr, sin_PI4_sqr, sin_cos_PI4 in H.
  etransitivity; [|exact H]. f_equal; field.
Qed.

Lemma textbook_radius : radius 1000 (-200) 200 = sqrt 370000.
Proof. unfold radius, np.sqrt. f_equal. field. Qed.

Lemma textbook_theta_bounds : 4.73 < theta_p_deg 1000 (-200) 200 < 4.7314.
Proof.
  rewrite theta_p_deg_eq.
  rewrite arctan2_pos by lra.
  replace (200 / (1000 - -200)) with (1 / 6) by field.
  pose proof atan_sixth_bounds as Ha. pose proof PI_bounds as Hpi.
  set (a := atan (1 / 6)) in *.
  assert (Hq : a / PI * PI = a) by (field; lra).
  split.
  - destruct (Rlt_le_dec 4.73 (90 * (a / PI))) as [H | H]; [lra | nra].
  - destruct (Rlt_le_dec (90 * (a / PI)) 4.7314) as [H | H]; [lra | nra].
Qed.

Lemma textbook_common :
  forall t, approx_2dp (theta_p_deg 1000 (-200) 200) t -> textbook_case t.
Proof.
  intros t Ht. unfold textbook_case.
  pose proof sqrt_370000_bounds as Hs.
  assert (Hc : center 1000 (-200) = 400) by (unfold center; field).
  split; [exact textbook_strains|].
  split; [exact Hc|].
  split; [exact textbook_radius|].
  unfold eps1, eps2. rewrite Hc, textbook_radius.
  split; [apply (approx_2dp_intro _ _ 608.276 608.277); lra|].
  split; [apply (approx_2dp_intro _ _ 1008.276 1008.277); lra|].
  split; [apply (approx_2dp_intro _ _ (-208.277) (-208.276)); lra|].
  split; [|exact Ht].
  unfold theta_p_deg, theta_p_rad. do 3 f_equal. lra.
Qed.

(** C5, as amended: for angles 0, 45, 90 and readings 1000, 500, -200
    the solver returns (1000, -200, 200), and the analysis gives
    center = 400, radius = sqrt(370000), about 608.28, eps1 about 1008.28,
    eps2 about -208.28, and theta_p_deg = degrees(0.5 * atan2(200, 1200)),
    about 4.73 degrees. *)
Theorem textbook_case_4_73 : textbook_case 4.73.
Proof.
  apply textbook_common.
  pose proof textbook_theta_bounds.
  apply (approx_2dp_intro _ _ 4.73 4.7314); lra.
Qed.

(** The value 9.46 degrees that C5 gives for the principal angle is
    that of degrees(atan2(200, 1200)), twice the angle the function
    returns. *)
Lemma textbook_case_not_9_46 : ~ textbook_case 9.46.
Proof.
  unfold textbook_case. intros (_ & _ & _ & _ & _ & _ & _ & H).
  apply approx_2dp_elim in H.
  pose proof textbook_theta_bounds. lra.
Qed.

End MohrsCircleCases.

(** * Further properties of [calculate_strains] *)

Section CalculateStrainsMore.

Lemma det3_swap01 r0 r1 r2 : det3 (r1, r0, r2) = - det3 (r0, r1, r2).
Proof.
  destruct r0 as [[a b] c], r1 as [[d e] f], r2 as [[g h] i].
  unfold det3. ring.
Qed.

Lemma det3_swap12 r0 r1 r2 : det3 (r0, r2, r1) = - det3 (r0, r1, r2).
Proof.
  destruct r0 as [[a b] c], r1 as [[d e] f], r2 as [[g h] i].
  unfold det3. ring.
Qed.

(** What the solver returns on a regular system predicts every
    reading it was given. *)
Lemma calculate_strains_readings theta_a theta_b theta_c eps_a eps_b eps_c s :
  calculate_strains theta_a theta_b theta_c eps_a eps_b eps_c = Ok s ->
  det3 (coefficient_matrix theta_a theta_b theta_c) <> 0 /\
  strain_at s (np.radians theta_a) = eps_a /\
  strain_at s (np.radians theta_b) = eps_b /\
  strain_at s (np.radians theta_c) = eps_c.
Proof.
  unfold calculate_strains. intros H. apply solve_ok in H.
  destruct H as [D S]. split; [exact D|].
  rewrite mulmv_coefficient_matrix in S. injection S as <- <- <-.
  repeat split.
Qed.

(** Conversely, a state that predicts the three readings is the one
    returned. *)
Lemma calculate_strains_char theta_a theta_b theta_c eps_a eps_b eps_c s :
  det3 (coefficient_matrix theta_a theta_b theta_c) <> 0 ->
  strain_at s (np.radians theta_a) = eps_a ->
  strain_at s (np.radians theta_b) = eps_b ->
  strain_at s (np.radians theta_c) = eps_c ->
  calculate_strains theta_a theta_b theta_c eps_a eps_b eps_c = Ok s.
Proof.
  intros D <- <- <-. apply calculate_strains_complete. exact D.
Qed.

Lemma strain_at_linear alpha beta s s' theta :
  let '(x, y, z) := s in
  let '(x', y', z') := s' in
  strain_at (alpha * x + beta * x', alpha * y + beta * y',
             alpha * z + beta * z') theta
  = alpha * strain_at s theta + beta * strain_at s' theta.
Proof.
  destruct s as [[x y] z], s' as [[x' y'] z']. unfold strain_at. ring.
Qed.

Lemma strain_at_isotropic e theta : strain_at (e, e, 0) theta = e.
Proof.
  unfold strain_at. pose proof (sin2_cos2 theta) as H. unfold Rsqr in H.
  replace e with (e * (sin theta * sin theta + cos theta * cos theta)) at 3
    by (rewrite H; ring).
  ring.
Qed.

Lemma rectangular_0_45_90 eps_a eps_b eps_c :
  calculate_strains 0 45 90 eps_a eps_b eps_c
  = Ok (eps_a, eps_c, 2 * eps_b - eps_a - eps_c).
Proof.
  apply calculate_strains_char; [exact det3_0_45_90_regular | | | ];
    unfold strain_at.
  - rewrite radians_0, cos_0, sin_0. ring.
  - rewrite radians_45.
    replace ((2 * eps_b - eps_a - eps_c) * sin (PI / 4) * cos (PI / 4))
      with ((2 * eps_b - eps_a - eps_c) * (sin (PI / 4) * cos (PI / 4)))
      by ring.
    rewrite cos_PI4_sqr, sin_PI4_sqr, sin_cos_PI4. field.
  - rewrite radians_90, cos_PI2, sin_PI2. ring.
Qed.

(** X1: the rectangular rosette of the default angles: the solver never
    fails on it, and the strain state is eps_x = eps_a, eps_y = eps_c,
    gamma_xy = 2 eps_b - eps_a - eps_c. *)
Theorem rectangular_rosette eps_a eps_b eps_c :
  calculate_strains defaults.theta_a defaults.theta_b defaults.theta_c
    eps_a eps_b eps_c
  = Ok (eps_a, eps_c, 2 * eps_b - eps_a - eps_c).
Proof.
  unfold defaults.theta_a, defaults.theta_b, defaults.theta_c.
  replace 0.0 with 0 by lra. replace 45.0 with 45 by lra.
  replace 90.0 with 90 by lra.
  apply rectangular_0_45_90.
Qed.

(** X2: round trip on any regular rosette: readings synthesised from a
    strain state with the strain-transformation formula are solved back
    to that state. *)
Theorem round_trip_regular theta_a theta_b theta_c eps_x eps_y gamma_xy :
  det3 (coefficient_matrix theta_a theta_b theta_c) <> 0 ->
  calculate_strains theta_a theta_b theta_c
    (strain_at (eps_x, eps_y, gamma_xy) (np.radians theta_a))
    (strain_at (eps_x, eps_y, gamma_xy) (np.radians theta_b))
    (strain_at (eps_x, eps_y, gamma_xy) (np.radians theta_c))
  = Ok (eps_x, eps_y, gamma_xy).
Proof.
  intros D. unfold calculate_strains.
  rewrite <- mulmv_coefficient_matrix.
  apply solve_complete. exact D.
Qed.

Lemma round_trip_regular_witness :
  det3 (coefficient_matrix 0 45 90) <> 0 /\
  calculate_strains 0 45 90
    (strain_at (3, 5, 7) (np.radians 0))
    (strain_at (3, 5, 7) (np.radians 45))
    (strain_at (3, 5, 7) (np.radians 90))
  = Ok (3, 5, 7).
Proof.
  split; [exact det3_0_45_90_regular|].
  exact (round_trip_regular 0 45 90 3 5 7 det3_0_45_90_regular).
Defined.

(** X3: superposition: the strain state is linear in the readings. *)
Theorem calculate_strains_linear
    theta_a theta_b theta_c eps_a eps_b eps_c eps_a' eps_b' eps_c'
    x y z x' y' z' alpha beta :
  calculate_strains theta_a theta_b theta_c eps_a eps_b eps_c
    = Ok (x, y, z) ->
  calculate_strains theta_a theta_b theta_c eps_a' eps_b' eps_c'
    = Ok (x', y', z') ->
  calculate_strains theta_a theta_b theta_c
    (alpha * eps_a + beta * eps_a')
    (alpha * eps_b + beta * eps_b')
    (alpha * eps_c + beta * eps_c')
  = Ok (alpha * x + beta * x', alpha * y + beta * y', alpha * z + beta * z').
Proof.
  intros H H'.
  apply calculate_strains_readings in H, H'.
  destruct H as (D & Ha & Hb & Hc), H' as (_ & Ha' & Hb' & Hc').
  apply calculate_strains_char; [exact D | | | ].
  - rewrite (strain_at_linear alpha beta (x, y, z) (x', y', z')).
    rewrite Ha, Ha'. reflexivity.
  - rewrite (strain_at_linear alpha beta (x, y, z) (x', y', z')).
    rewrite Hb, Hb'. reflexivity.
  - rewrite (strain_at_linear alpha beta (x, y, z) (x', y', z')).
    rewrite Hc, Hc'. reflexivity.
Qed.

Lemma calculate_strains_linear_witness :
  calculate_strains 0 45 90 1 0 0 = Ok (1, 0, 2 * 0 - 1 - 0) /\
  calculate_strains 0 45 90 0 1 0 = Ok (0, 0, 2 * 1 - 0 - 0) /\
  calculate_strains 0 45 90 (3 * 1 + 5 * 0) (3 * 0 + 5 * 1) (3 * 0 + 5 * 0)
  = Ok (3 * 1 + 5 * 0, 3 * 0 + 5 * 0,
        3 * (2 * 0 - 1 - 0) + 5 * (2 * 1 - 0 - 0)).
Proof.
  split; [exact (rectangular_0_45_90 1 0 0)|].
  split; [exact (rectangular_0_45_90 0 1 0)|].
  exact (calculate_strains_linear 0 45 90 1 0 0 0 1 0 _ _ _ _ _ _ 3 5
           (rectangular_0_45_90 1 0 0) (rectangular_0_45_90 0 1 0)).
Defined.

(** X4: three equal readings on a regular rosette give the isotropic state
    with no shear, whose circle is a point: both principal strains are
    the common reading. *)
Theorem uniform_readings theta_a theta_b theta_c e :
  det3 (coefficient_matrix theta_a theta_b theta_c) <> 0 ->
  calculate_strains theta_a theta_b theta_c e e e = Ok (e, e, 0) /\
  radius e e 0 = 0 /\ eps1 e e 0 = e /\ eps2 e e 0 = e.
Proof.
  intros D. split.
  - apply calculate_strains_char; [exact D | | | ]; apply strain_at_isotropic.
  - assert (Hr : radius e e 0 = 0) by (apply radius_zero_iff; auto).
    unfold eps1, eps2, center. rewrite Hr. repeat split; field.
Qed.

Lemma uniform_readings_witness :
  det3 (coefficient_matrix 0 45 90) <> 0 /\
  calculate_strains 0 45 90 7 7 7 = Ok (7, 7, 0).
Proof.
  split; [exact det3_0_45_90_regular|].
  exact (proj1 (uniform_readings 0 45 90 7 det3_0_45_90_regular)).
Defined.

(** X5: whole turns of a gauge do not matter: on a regular rosette,
    adding any multiples of 180 degrees to the three angles gives the
    same strain state. *)
Theorem calculate_strains_period
    theta_a theta_b theta_c eps_a eps_b eps_c (ka kb kc : Z) :
  det3 (coefficient_matrix theta_a theta_b theta_c) <> 0 ->
  exists s,
    calculate_strains theta_a theta_b theta_c eps_a eps_b eps_c = Ok s /\
    calculate_strains (theta_a + 180 * IZR ka) (theta_b + 180 * IZR kb)
      (theta_c + 180 * IZR kc) eps_a eps_b eps_c = Ok s.
Proof.
  intros D.
  destruct (solve_regular _ (eps_a, eps_b, eps_c) D) as (s & E & _).
  exists s. split; [exact E|].
  unfold calculate_strains.
  rewrite !coefficient_matrix_rows, !radians_plus_mult_180,
    !coefficient_row_period.
  rewrite <- coefficient_matrix_rows. exact E.
Qed.

Lemma calculate_strains_period_witness :
  det3 (coefficient_matrix 0 45 90) <> 0 /\
  exists s,
    calculate_strains 0 45 90 1000 500 (-200) = Ok s /\
    calculate_strains (0 + 180 * IZR 2) (45 + 180 * IZR (-1))
      (90 + 180 * IZR 0) 1000 500 (-200) = Ok s.
Proof.
  split; [exact det3_0_45_90_regular|].
  exact (calculate_strains_period 0 45 90 1000 500 (-200) 2 (-1) 0
           det3_0_45_90_regular).
Defined.

(** X6: the order of the three gauges does not matter: on a regular
    rosette the six orders of the (angle, reading) pairs give the same
    strain state. *)
Theorem calculate_strains_any_order
    theta_a theta_b theta_c eps_a eps_b eps_c :
  det3 (coefficient_matrix theta_a theta_b theta_c) <> 0 ->
  exists s,
    calculate_strains theta_a theta_b theta_c eps_a eps_b eps_c = Ok s /\
    calculate_strains theta_a theta_c theta_b eps_a eps_c eps_b = Ok s /\
    calculate_strains theta_b theta_a theta_c eps_b eps_a eps_c = Ok s /\
    calculate_strains theta_b theta_c theta_a eps_b eps_c eps_a = Ok s /\
    calculate_strains theta_c theta_a theta_b eps_c eps_a eps_b = Ok s /\
    calculate_strains theta_c theta_b theta_a eps_c eps_b eps_a = Ok s.
Proof.
  intros D.
  destruct (solve_regular _ (eps_a, eps_b, eps_c) D) as (s & E & _).
  fold (calculate_strains theta_a theta_b theta_c eps_a eps_b eps_c) in E.
  exists s. split; [exact E|].
  apply calculate_strains_readings in E. destruct E as (_ & Ha & Hb & Hc).
  rewrite coefficient_matrix_rows in D.
  repeat split; apply calculate_strains_char; try assumption;
    rewrite coefficient_matrix_rows.
  - rewrite det3_swap12. lra.
  - rewrite det3_swap01. lra.
  - rewrite det3_swap12, det3_swap01. lra.
  - rewrite det3_swap01, det3_swap12. lra.
  - rewrite det3_swap02. lra.
Qed.

Lemma calculate_strains_any_order_witness :
  det3 (coefficient_matrix 0 45 90) <> 0 /\
  exists s,
    calculate_strains 0 45 90 1000 500 (-200) = Ok s /\
    calculate_strains 45 0 90 500 1000 (-200) = Ok s.
Proof.
  split; [exact det3_0_45_90_regular|].
  destruct (calculate_strains_any_order 0 45 90 1000 500 (-200)
              det3_0_45_90_regular) as (s & E & _ & E' & _).
  exists s. split; assumption.
Defined.

End CalculateStrainsMore.

(** * Principal strains and directions *)

Section PrincipalStrains.

(** The strain-transformation formula in double-angle form. *)
Lemma strain_at_double_angle eps_x eps_y gamma_xy theta :
  strain_at (eps_x, eps_y, gamma_xy) theta =
  center eps_x eps_y + (eps_x - eps_y) / 2 * cos (2 * theta)
  + gamma_xy / 2 * sin (2 * theta).
Proof.
  unfold strain_at, center. rewrite cos_2a, sin_2a.
  pose proof (sin2_cos2 theta) as H. unfold Rsqr in H.
  replace ((eps_x + eps_y) / 2)
    with ((eps_x + eps_y) / 2 * (sin theta * sin theta + cos theta * cos theta))
    by (rewrite H; ring).
  field.
Qed.


(** In polar form: the formula is the centre plus the radius times the
    cosine of the angle to the principal direction, doubled. *)
Lemma strain_at_polar eps_x eps_y gamma_xy theta :
  strain_at (eps_x, eps_y, gamma_xy) theta =
  center eps_x eps_y
  + radius eps_x eps_y gamma_xy
    * cos (2 * theta - np.arctan2 gamma_xy (eps_x - eps_y)).
Proof.
  rewrite strain_at_double_angle, cos_minus.
  pose proof (arctan2_polar gamma_xy (eps_x - eps_y)) as [Hx Hy].
  rewrite diameter_hypot in Hx, Hy.
  set (phi := np.arctan2 gamma_xy (eps_x - eps_y)) in *.
  set (r := radius eps_x eps_y gamma_xy) in *.
  rewrite Hy at 1. rewrite Hx at 1. field.
Qed.

Lemma radians_degrees x : np.radians (np.degrees x) = x.
Proof.
  unfold np.radians, np.degrees. field. pose proof PI_RGT_0. lra.
Qed.

Lemma radians_theta_p_deg eps_x eps_y gamma_xy :
  2 * np.radians (theta_p_deg eps_x eps_y gamma_xy)
  = np.arctan2 gamma_xy (eps_x - eps_y).
Proof.
  unfold theta_p_deg. rewrite radians_degrees. unfold theta_p_rad. lra.
Qed.

(** X7: the principal strains are the eigenvalues of the strain tensor
    [[eps_x, gamma_xy/2], [gamma_xy/2, eps_y]]: they keep its trace and
    its determinant, and each is a root of its characteristic
    polynomial. *)
Theorem principal_strains_eigenvalues eps_x eps_y gamma_xy :
  let e1 := eps1 eps_x eps_y gamma_xy in
  let e2 := eps2 eps_x eps_y gamma_xy in
  e1 + e2 = eps_x + eps_y /\
  e1 * e2 = eps_x * eps_y - (gamma_xy / 2) ^ 2 /\
  (eps_x - e1) * (eps_y - e1) - (gamma_xy / 2) ^ 2 = 0 /\
  (eps_x - e2) * (eps_y - e2) - (gamma_xy / 2) ^ 2 = 0.
Proof.
  cbv zeta. unfold eps1, eps2, center.
  pose proof (radius_sqr eps_x eps_y gamma_xy) as Hs.
  set (r := radius eps_x eps_y gamma_xy) in *.
  assert (Hr : r * r = ((eps_x - eps_y) / 2) ^ 2 + (gamma_xy / 2) ^ 2)
    by (rewrite <- Hs; ring).
  split; [field|].
  split; [| split].
  - transitivity (((eps_x + eps_y) / 2) ^ 2 - r * r); [ring|].
    rewrite Hr. field.
  - transitivity (r * r - ((eps_x - eps_y) / 2) ^ 2 - (gamma_xy / 2) ^ 2);
      [field|].
    rewrite Hr. ring.
  - transitivity (r * r - ((eps_x - eps_y) / 2) ^ 2 - (gamma_xy / 2) ^ 2);
      [field|].
    rewrite Hr. ring.
Qed.

Lemma strain_at_bounds eps_x eps_y gamma_xy theta :
  eps2 eps_x eps_y gamma_xy
  <= strain_at (eps_x, eps_y, gamma_xy) theta
  <= eps1 eps_x eps_y gamma_xy.
Proof.
  rewrite strain_at_polar. unfold eps1, eps2.
  pose proof (radius_nonneg eps_x eps_y gamma_xy) as Hr.
  pose proof (COS_bound (2 * theta - np.arctan2 gamma_xy (eps_x - eps_y)))
    as [Hl Hu].
  split; nra.
Qed.

(** X8: the principal strains bound the normal strain in every direction:
    no gauge, at whatever angle, reads more than eps1 or less than
    eps2. *)
Theorem principal_strains_extremal eps_x eps_y gamma_xy theta :
  eps2 eps_x eps_y gamma_xy
  <= strain_at (eps_x, eps_y, gamma_xy) theta
  <= eps1 eps_x eps_y gamma_xy.
Proof.
  rewrite strain_at_polar. unfold eps1, eps2.
  pose proof (radius_nonneg eps_x eps_y gamma_xy) as Hr.
  pose proof (COS_bound (2 * theta - np.arctan2 gamma_xy (eps_x - eps_y)))
    as [Hl Hu].
  split; nra.
Qed.

(** X9: the returned angle is the direction of eps1: a gauge at
    [theta_p_deg] reads eps1, and one at right angles to it reads
    eps2. *)
Theorem principal_direction eps_x eps_y gamma_xy :
  let theta_p := theta_p_deg eps_x eps_y gamma_xy in
  strain_at (eps_x, eps_y, gamma_xy) (np.radians theta_p)
    = eps1 eps_x eps_y gamma_xy /\
  strain_at (eps_x, eps_y, gamma_xy) (np.radians (theta_p + 90))
    = eps2 eps_x eps_y gamma_xy.
Proof.
  cbv zeta. rewrite !strain_at_polar. unfold eps1, eps2. split.
  - rewrite radians_theta_p_deg.
    replace (np.arctan2 gamma_xy (eps_x - eps_y)
             - np.arctan2 gamma_xy (eps_x - eps_y)) with 0 by ring.
    rewrite cos_0. ring.
  - replace (2 * np.radians (theta_p_deg eps_x eps_y gamma_xy + 90)
             - np.arctan2 gamma_xy (eps_x - eps_y)) with PI.
    + rewrite cos_PI. ring.
    + rewrite <- radians_theta_p_deg. unfold np.radians. field.
Qed.

(** X10: the solver composed with the analysis: on a regular rosette each of
    the three readings lies between the principal strains computed
    from the solved state. *)
Theorem readings_within_principal_strains
    theta_a theta_b theta_c eps_a eps_b eps_c :
  det3 (coefficient_matrix theta_a theta_b theta_c) <> 0 ->
  exists eps_x eps_y gamma_xy,
    calculate_strains theta_a theta_b theta_c eps_a eps_b eps_c
      = Ok (eps_x, eps_y, gamma_xy) /\
    eps2 eps_x eps_y gamma_xy <= eps_a <= eps1 eps_x eps_y gamma_xy /\
    eps2 eps_x eps_y gamma_xy <= eps_b <= eps1 eps_x eps_y gamma_xy /\
    eps2 eps_x eps_y gamma_xy <= eps_c <= eps1 eps_x eps_y gamma_xy.
Proof.
  intros D.
  destruct (solve_regular _ (eps_a, eps_b, eps_c) D) as ([[x y] z] & E & _).
  fold (calculate_strains theta_a theta_b theta_c eps_a eps_b eps_c) in E.
  exists x, y, z. split; [exact E|].
  apply calculate_strains_readings in E. destruct E as (_ & <- & <- & <-).
  repeat split; apply strain_at_bounds.
Qed.

Lemma readings_within_principal_strains_witness :
  det3 (coefficient_matrix 0 45 90) <> 0 /\
  exists eps_x eps_y gamma_xy,
    calculate_strains 0 45 90 1000 500 (-200) = Ok (eps_x, eps_y, gamma_xy) /\
    eps2 eps_x eps_y gamma_xy <= 500 <= eps1 eps_x eps_y gamma_xy.
Proof.
  split; [exact det3_0_45_90_regular|].
  destruct (readings_within_principal_strains 0 45 90 1000 500 (-200)
              det3_0_45_90_regular) as (x & y & z & E & _ & Hb & _).
  exists x, y, z. split; assumption.
Defined.

(** X11: the two-argument arctangent at the axes, on floats.  Without
    shear (gamma_xy zero or negative zero) the principal direction is
    the x axis when eps_x > eps_y; when eps_x < eps_y it is the y axis,
    given as 90 for a zero gamma_xy and as -90 for a negative zero.
    With eps_x = eps_y it is at 45 degrees, on the side of the sign of
    gamma_xy, and nothing is divided by zero. *)
Theorem principal_angle_on_axes eps_x eps_y gamma_xy :
  (eps_y < eps_x ->
   theta_p_deg_f64 (Fin eps_x) (Fin eps_y) (Fin 0) = 0 /\
   theta_p_deg_f64 (Fin eps_x) (Fin eps_y) NegZero = 0) /\
  (eps_x < eps_y ->
   theta_p_deg_f64 (Fin eps_x) (Fin eps_y) (Fin 0) = 90 /\
   theta_p_deg_f64 (Fin eps_x) (Fin eps_y) NegZero = - 90) /\
  (0 < gamma_xy ->
   theta_p_deg_f64 (Fin eps_x) (Fin eps_x) (Fin gamma_xy) = 45) /\
  (gamma_xy < 0 ->
   theta_p_deg_f64 (Fin eps_x) (Fin eps_x) (Fin gamma_xy) = - 45).
Proof.
  pose proof PI_RGT_0 as Hpi.
  rewrite !theta_p_deg_f64_eq. simpl. unfold np.arctan2.
  split; [|split; [|split]]; intros H.
  - destruct (Rlt_dec 0 (eps_x - eps_y)); [|lra].
    destruct (Rlt_dec (eps_x - eps_y) 0); [lra|].
    unfold Rdiv at 2. rewrite Rmult_0_l, atan_0. split; field; lra.
  - destruct (Rlt_dec 0 (eps_x - eps_y)); [lra|].
    destruct (Rlt_dec (eps_x - eps_y) 0); [|lra].
    destruct (Rle_dec 0 0); [|lra].
    unfold Rdiv at 2. rewrite Rmult_0_l, atan_0. split; field; lra.
  - destruct (Rlt_dec 0 (eps_x - eps_x)); [lra|].
    destruct (Rlt_dec (eps_x - eps_x) 0); [lra|].
    destruct (Rlt_dec 0 gamma_xy); [|lra]. field. lra.
  - destruct (Rlt_dec 0 (eps_x - eps_x)); [lra|].
    destruct (Rlt_dec (eps_x - eps_x) 0); [lra|].
    destruct (Rlt_dec 0 gamma_xy); [lra|].
    destruct (Rlt_dec gamma_xy 0); [|lra]. field. lra.
Qed.

Lemma principal_angle_on_axes_witness :
  (0 : R) < 1 /\
  theta_p_deg_f64 (Fin 0) (Fin 1) (Fin 0) = 90 /\
  theta_p_deg_f64 (Fin 0) (Fin 1) NegZero = - 90.
Proof.
  assert (H : (0 : R) < 1) by lra.
  split; [exact H|].
  exact (proj1 (proj2 (principal_angle_on_axes 0 1 0)) H).
Defined.

End PrincipalStrains.

(** * Turning the rosette *)

Section TurnedRosette.








End TurnedRosette.

(** * The extent of the plot *)

Section PlotExtent.

Variables eps_x eps_y gamma_xy : R.

Lemma half_difference_le_radius :
  Rabs ((eps_x - eps_y) / 2) <= radius eps_x eps_y gamma_xy.
Proof.
  pose proof (radius_nonneg eps_x eps_y gamma_xy) as Hr.
  pose proof (radius_sqr eps_x eps_y gamma_xy) as Hs.
  set (r := radius eps_x eps_y gamma_xy) in *.
  set (u := (eps_x - eps_y) / 2) in *. set (v := gamma_xy / 2) in *.
  apply Rabs_le. split; nra.
Qed.

Lemma half_shear_le_radius :
  Rabs (gamma_xy / 2) <= radius eps_x eps_y gamma_xy.
Proof.
  pose proof (radius_nonneg eps_x eps_y gamma_xy) as Hr.
  pose proof (radius_sqr eps_x eps_y gamma_xy) as Hs.
  set (r := radius eps_x eps_y gamma_xy) in *.
  set (u := (eps_x - eps_y) / 2) in *. set (v := gamma_xy / 2) in *.
  apply Rabs_le. split; nra.
Qed.

Lemma dist2d_bounds p c r :
  dist2d p c <= r ->
  Rabs (fst p - fst c) <= r /\ Rabs (snd p - snd c) <= r.
Proof.
  unfold dist2d. intros H.
  set (dx := fst p - fst c) in *. set (dy := snd p - snd c) in *.
  assert (Hn : 0 <= dx ^ 2 + dy ^ 2)
    by (apply Rplus_le_le_0_compat; apply pow2_ge_0).
  pose proof (sqrt_pos (dx ^ 2 + dy ^ 2)) as Hp.
  pose proof (sqrt_sqrt _ Hn) as Hs.
  set (d := sqrt (dx ^ 2 + dy ^ 2)) in *.
  split; apply Rabs_le; split; nra.
Qed.

End PlotExtent.

Section PlotView.

Lemma Rabs_le_bounds x a : Rabs x <= a -> - a <= x <= a.
Proof.
  intros H. pose proof (Rle_abs x) as H1. pose proof (Rle_abs (- x)) as H2.
  rewrite Rabs_Ropp in H2. lra.
Qed.

Lemma convex_between lo hi u v t :
  lo <= u <= hi -> lo <= v <= hi -> 0 <= t <= 1 ->
  lo <= (1 - t) * u + t * v <= hi.
Proof. intros Hu Hv Ht. split; nra. Qed.

(** X13: nothing is drawn outside the limits set on the axes: the disc, the
    dashed diameter, the three markers and the horizontal line all lie
    inside the view. *)
Theorem drawing_within_view eps_x eps_y gamma_xy a p :
  let fig := snd (plot_mohrs_circle eps_x eps_y gamma_xy) in
  In a (artists fig) -> on_artist fig a p -> in_view fig p.
Proof.
  cbv zeta.
  pose proof (radius_nonneg eps_x eps_y gamma_xy) as Hr.
  pose proof (half_difference_le_radius eps_x eps_y gamma_xy) as Hd.
  pose proof (half_shear_le_radius eps_x eps_y gamma_xy) as Hg.
  apply Rabs_le_bounds in Hd, Hg.
  unfold in_view. simpl. unfold eps1, eps2.
  set (r := radius eps_x eps_y gamma_xy) in *.
  assert (Hc : center eps_x eps_y = (eps_x + eps_y) / 2) by reflexivity.
  set (c := center eps_x eps_y) in *.
  destruct p as [px py]. simpl fst. simpl snd.
  intros [<- | [<- | [<- | [<- | [<- | [<- | []]]]]]]; simpl.
  - intros H. apply dist2d_bounds in H. simpl in H.
    destruct H as [Hx Hy]. apply Rabs_le_bounds in Hx, Hy. lra.
  - assert (Bx : c - r * 1.2 <= eps_x <= c + r * 1.2) by lra.
    assert (Bx' : c - r * 1.2 <= eps_y <= c + r * 1.2) by lra.
    assert (By : - r * 1.2 <= - gamma_xy / 2 <= r * 1.2) by lra.
    assert (By' : - r * 1.2 <= gamma_xy / 2 <= r * 1.2) by lra.
    intros [(t & Ht & E) | E]; injection E as -> ->.
    + split; apply convex_between; assumption.
    + split; assumption.
  - intros E. injection E as -> ->. lra.
  - intros E. injection E as -> ->. lra.
  - intros E. injection E as -> ->. lra.
  - intros [-> Hx]. unfold within in Hx. simpl in Hx.
    fold r c in Hx. lra.
Qed.

Lemma drawing_within_view_witness :
  In (Circle (center 3 1, 0) (radius 3 1 0))
     (artists (snd (plot_mohrs_circle 3 1 0))) /\
  in_view (snd (plot_mohrs_circle 3 1 0)) (center 3 1, 0).
Proof.
  assert (Hin : In (Circle (center 3 1, 0) (radius 3 1 0))
                   (artists (snd (plot_mohrs_circle 3 1 0))))
    by (simpl; auto).
  split; [exact Hin|].
  apply (drawing_within_view 3 1 0 _ (center 3 1, 0) Hin).
  simpl. unfold dist2d. simpl.
  replace ((center 3 1 - center 3 1) * ((center 3 1 - center 3 1) * 1)
           + (0 - 0) * ((0 - 0) * 1)) with 0 by ring.
  rewrite sqrt_0. apply radius_nonneg.
Defined.

End PlotView.
